(** * XML documentation to styled HTML: a verified model

    A shallow embedding of [scripts/convert_xml_doc_to_styled_html.py]:
    the member extractor, the document renderer and the conversion
    driver, together with the parts of Python's [str], [html] and
    [xml.etree.ElementTree] that they call. *)

From Stdlib Require Import String Ascii NArith List.
From stdpp Require Import base option list gmap sorting.
From Equations Require Import Equations.

Set Default Proof Using "Type".
Local Open Scope N_scope.
Local Open Scope list_scope.

(** ** Python strings

    A Python [str] is a sequence of Unicode code points; it is modelled
    as a list of code points, so that [str.strip] sees the same white
    space as Python does.  ASCII literals of the source are written with
    [lit]. *)

Abbreviation char := N (only parsing).
Abbreviation str := (list N) (only parsing).

Definition lit (s : string) : str := N_of_ascii <$> list_ascii_of_string s.

Definition LF : char := 10.
Definition AMP : char := 38.
Definition LT : char := 60.
Definition GT : char := 62.
Definition DQUOTE : char := 34.
Definition SQUOTE : char := 39.

(** [str.isspace] on one code point (CPython's [_PyUnicode_IsWhitespace]). *)
Definition isspace (c : char) : bool :=
  ((9 <=? c) && (c <=? 13)) || ((28 <=? c) && (c <=? 32))
  || (c =? 133) || (c =? 160) || (c =? 5760)
  || ((8192 <=? c) && (c <=? 8202))
  || (c =? 8232) || (c =? 8233) || (c =? 8239) || (c =? 8287) || (c =? 12288).

Fixpoint lstrip (s : str) : str :=
  match s with
  | c :: s' => if isspace c then lstrip s' else s
  | [] => []
  end.

Definition rstrip (s : str) : str := reverse (lstrip (reverse s)).

(** [s.strip()]: white space removed at both ends. *)
Definition strip (s : str) : str := rstrip (lstrip s).

(** [s.replace(old, new)] for a pattern [old] of one character, the only
    use the source makes of it. *)
Definition replace (old : char) (new : str) (s : str) : str :=
  s ≫= λ c, if decide (c = old) then new else [c].

(** [html.escape(s)] with its default [quote=True]: the ampersand first,
    then the angle brackets, then both quotes. *)
Definition escape (s : str) : str :=
  let s := replace AMP (lit "&amp;") s in
  let s := replace LT (lit "&lt;") s in
  let s := replace GT (lit "&gt;") s in
  let s := replace DQUOTE (lit "&quot;") s in
  let s := replace SQUOTE (lit "&#x27;") s in
  s.

(** [sep.join(parts)]. *)
Fixpoint join (sep : str) (parts : list str) : str :=
  match parts with
  | [] => []
  | [p] => p
  | p :: ps => p ++ sep ++ join sep ps
  end.

(** ** ElementTree

    An [Element] carries a tag, an attribute dictionary, the text before
    its first child, the text after its end tag, and its children. *)

Local Unset Elimination Schemes.

Inductive Element : Type := mkElement {
  tag : str;
  attrib : gmap str str;
  text : option str;
  tail : option str;
  children : list Element
}.

Local Set Elimination Schemes.

(** A node of a tree is identified by its position: the child indices on
    the way from the element the search starts at.  Python compares
    elements by object identity ([is]); in a parsed tree every node is
    an object of its own, so identity is the position. *)
Abbreviation path := (list nat) (only parsing).

Definition under (i : nat) (n : path * Element) : path * Element :=
  (i :: n.1, n.2).

(** The loop [for e in self: yield from e.iter(tag)] over the children,
    the child at index [i] first. *)
Definition iter_children (iter : Element → list (path * Element)) :=
  fix go (i : nat) (cs : list Element) : list (path * Element) :=
    match cs with
    | [] => []
    | c :: cs' => (under i <$> iter c) ++ go (S i) cs'
    end.

(** [Element.iter(tag)]: the element itself when its tag matches, then
    the matching elements of each child's subtree, in document order. *)
Fixpoint iter (t : str) (e : Element) : list (path * Element) :=
  match e with
  | mkElement t' _ _ _ cs =>
    (if decide (t' = t) then [([], e)] else []) ++ iter_children (iter t) 0 cs
  end.

(** [elem.findall(".//" + t)]: ElementPath's descendant selector,
    [for e in elem.iter(t): if e is not elem: yield e]. *)
Definition findall_descendants (t : str) (elem : Element) : list (path * Element) :=
  filter (λ n, n.1 ≠ []) (iter t elem).

(** [elem.find(t)] for a plain tag [t]: the first direct child with that
    tag, [None] when there is none. *)
Definition find (t : str) (elem : Element) : option Element :=
  List.find (λ c, bool_decide (tag c = t)) (children elem).

(** The element at a position, if the position is in the tree. *)
Fixpoint lookup_path (e : Element) (p : path) : option Element :=
  match p with
  | [] => Some e
  | i :: p' => children e !! i ≫= λ c, lookup_path c p'
  end.

(** Document order on positions: an element comes before everything
    under it, and the subtree of an earlier child before that of a later
    one. *)
Fixpoint doc_lt (p q : path) : Prop :=
  match p, q with
  | [], [] => False
  | [], _ :: _ => True
  | _ :: _, [] => False
  | i :: p', j :: q' => (i < j)%nat ∨ (i = j ∧ doc_lt p' q')
  end.

(** Induction on trees: a property that holds of an element whenever it
    holds of its children holds of every element. *)
Section ElementInduction.

Variable P : Element → Prop.
Hypothesis step : ∀ t a x tl cs, Forall P cs → P (mkElement t a x tl cs).

Fixpoint Element_ind (e : Element) : P e :=
  match e with
  | mkElement t a x tl cs =>
    step t a x tl cs
      ((fix all (cs : list Element) : Forall P cs :=
          match cs with
          | [] => List.Forall_nil P
          | c :: cs' => List.Forall_cons P c cs' (Element_ind c) (all cs')
          end) cs)
  end.

End ElementInduction.

(** ** The script *)

(** [get_css_styles()] *)
Definition get_css_styles : str := lit "
        body {
            font-family: 'Segoe UI', Tahoma, Geneva, Verdana, sans-serif;
            margin: 2em;
            background-color: #f8f9fa;
            color: #333;
            line-height: 1.6;
        }

        h1 {
            color: #0d47a1;
            border-bottom: 2px solid #1976d2;
            padding-bottom: 0.3em;
            margin-bottom: 1em;
        }

        h2 {
            color: #1565c0;
            margin-top: 1.5em;
            margin-bottom: 0.5em;
        }

        p {
            margin: 0.5em 0 1em;
            line-height: 1.6;
        }

        .member-block {
            background-color: #ffffff;
            border-left: 4px solid #42a5f5;
            padding: 1em;
            margin: 1em 0;
            box-shadow: 0 2px 4px rgba(0,0,0,0.05);
            border-radius: 4px;
        }

        code {
            background-color: #eceff1;
            padding: 0.2em 0.4em;
            border-radius: 3px;
            font-family: 'Consolas', 'Monaco', 'Courier New', monospace;
            font-size: 0.9em;
        }

        .member-name {
            font-family: 'Consolas', 'Monaco', 'Courier New', monospace;
            font-size: 0.9em;
            color: #424242;
        }

        .no-summary {
            color: #757575;
            font-style: italic;
        }
    ".

Definition no_summary : str :=
  lit "<span class=" ++ [DQUOTE] ++ lit "no-summary" ++ [DQUOTE]
  ++ lit ">No summary available.</span>".

(** [extract_member_info(member_element)].  The [if] takes the branch of
    the escaped text when the element is there and its text is true,
    which [None] and the empty string are not. *)
Definition extract_member_info (member_element : Element) : str * str :=
  let name := default (lit "Unknown") (attrib member_element !! lit "name") in
  let summary_elem := find (lit "summary") member_element in
  let summary :=
    match summary_elem with
    | Some e =>
      match text e with
      | Some (c :: t) => escape (strip (c :: t))
      | Some [] | None => no_summary
      end
    | None => no_summary
    end in
  (name, summary).

Definition default_title : str := lit "NuGetInspectorApp Documentation".

Definition div_open : str := lit "    <div class='member-block'>".

(** The fragments with which [html_parts] starts. *)
Definition html_head (title : str) : list str :=
  [ lit "<!DOCTYPE html>";
    lit "<html lang='en'>";
    lit "<head>";
    lit "    <meta charset='UTF-8'>";
    lit "    <meta name='viewport' content='width=device-width, initial-scale=1.0'>";
    lit "    <title>" ++ escape title ++ lit "</title>";
    lit "    <style>";
    get_css_styles;
    lit "    </style>";
    lit "</head>";
    lit "<body>";
    lit "    <h1>" ++ escape title ++ lit "</h1>" ].

(** The four fragments that one turn of the loop appends. *)
Definition member_block (member : Element) : list str :=
  let '(name, summary) := extract_member_info member in
  [ div_open;
    lit "        <h2><code class='member-name'>" ++ escape name ++ lit "</code></h2>";
    lit "        <p>" ++ summary ++ lit "</p>";
    lit "    </div>" ].

Definition html_foot : list str := [ lit "</body>"; lit "</html>" ].

(** The list [html_parts] as it stands when [generate_html_content]
    joins it.  An omitted [title] argument is [None]. *)
Definition html_parts (xml_root : Element) (title : option str) : list str :=
  let title := default default_title title in
  let html_parts := html_head title in
  let members := findall_descendants (lit "member") xml_root in
  let html_parts :=
    fold_left (λ html_parts member, html_parts ++ member_block member.2)
              members html_parts in
  html_parts ++ html_foot.

(** [generate_html_content(xml_root, title)] *)
Definition generate_html_content (xml_root : Element) (title : option str) : str :=
  join [LF] (html_parts xml_root title).

(** ** Files and the console

    A path names a regular file, a directory, or nothing.  The script
    reads the state of the files through [Path.exists] and [ET.parse];
    what [pathlib], [Path.write_text] and [print] do is the platform's,
    and the script is modelled over a platform that is left open. *)

Inductive node : Type :=
  | File (content : list N)
  | Dir.

Record World : Type := mkWorld {
  fs : gmap str node;
  stdout : list str
}.

Inductive exn : Type :=
  | FileNotFoundError (msg : str)
  | ParseError (msg : str)
  | IsADirectoryError
  | UnicodeEncodeError.

(** The [except] clause of the entry point that takes the exception. *)
Inductive category : Type := NotFound | Parse | Unexpected.

Definition handler (e : exn) : category :=
  match e with
  | FileNotFoundError _ => NotFound
  | ParseError _ => Parse
  | _ => Unexpected
  end.

(** [Path.exists()]: true of files and of directories. *)
Definition exists_ (w : World) (p : str) : bool :=
  bool_decide (is_Some (fs w !! p)).

Definition utf8_char (c : char) : option (list N) :=
  if c <? 128 then Some [c]
  else if c <? 2048 then Some [192 + c / 64; 128 + c mod 64]
  else if (55296 <=? c) && (c <=? 57343) then None
  else if c <? 65536 then
    Some [224 + c / 4096; 128 + (c / 64) mod 64; 128 + c mod 64]
  else if c <? 1114112 then
    Some [240 + c / 262144; 128 + (c / 4096) mod 64;
          128 + (c / 64) mod 64; 128 + c mod 64]
  else None.

(** [s.encode("utf-8")]; [None] stands for [UnicodeEncodeError]. *)
Definition utf8_encode (s : str) : option (list N) :=
  mjoin <$> mapM utf8_char s.

(** A statement that runs: the world it leaves, and either the
    exception it raises or its value.  A raised exception ends the
    statements that follow. *)
Definition IO (A : Type) : Type := World → World * (exn + A).

#[global] Instance IO_ret : MRet IO := λ A a w, (w, inr a).

#[global] Instance IO_bind : MBind IO := λ A B k m w,
  match m w with
  | (w', inl e) => (w', inl e)
  | (w', inr a) => k a w'
  end.

(** What the script calls and does not define.  [Path p] is the text of
    the [pathlib.Path] made of [p], which is what [str] and the calls on
    the path object use.  [write_text p data] is
    [Path.write_text(data, encoding="utf-8")] on the path [p], and
    [print line] is [print(line)]: each may raise, and what it leaves
    behind when it does is the platform's as well. *)
Record Platform : Type := mkPlatform {
  Path : str → str;
  write_text : str → str → IO ();
  print : str → IO ()
}.

(** [str(n)] of a count: its decimal digits, without a leading zero. *)
Definition digit (d : nat) : char := 48 + N.of_nat d.

Equations? decimal (n : nat) : str by wf n lt :=
  decimal n with decide (n < 10)%nat := {
    | left _ := [digit n];
    | right _ := decimal (n / 10) ++ [digit (n mod 10)] }.
Proof. change (n / 10 < n)%nat. apply Nat.div_lt; lia. Qed.

(** The two lines that a run prints when it is done; each starts with
    the characters that the source file has in front of the words. *)
Definition written_line (output_file : str) : str :=
  [8218; 250; 214] ++ lit " Styled documentation written to " ++ output_file.

Definition processed_line (n : nat) : str :=
  [63743; 252; 236; 228] ++ lit " Processed " ++ decimal n
  ++ lit " documentation members".

Section Driver.

(** The XML parser on the bytes of a file: the root element of a
    well-formed document, or the message of [ET.ParseError]. *)
Variable parse_xml : list N → str + Element.

Variable P : Platform.

(** [ET.parse(path).getroot()]: the file is opened, read and parsed.
    The driver calls it on a path that exists; the first case is there
    for the path that does not. *)
Definition et_parse (p : str) (w : World) : exn + Element :=
  match fs w !! p with
  | None => inl (FileNotFoundError [])
  | Some Dir => inl IsADirectoryError
  | Some (File bytes) =>
    match parse_xml bytes with
    | inl msg => inl (ParseError msg)
    | inr root => inr root
    end
  end.

(** [convert_xml_to_html(input_path, output_path)] *)
Definition convert_xml_to_html (input_path output_path : str) : IO () :=
  let input_file := Path P input_path in
  let output_file := Path P output_path in
  λ w,
    if negb (exists_ w input_file) then
      (w, inl (FileNotFoundError (lit "Input file not found: " ++ input_path)))
    else
      match et_parse input_file w with
      | inl e => (w, inl e)
      | inr root =>
        let html_content := generate_html_content root None in
        (write_text P output_file html_content;;
         print P (written_line output_file);;
         print P (processed_line
                    (length (findall_descendants (lit "member") root)))) w
      end.

End Driver.

(** ** What the reader of the page sees

    These definitions are not in the script; the statements about its
    output are made with them. *)

(** The character references that [html.escape] writes. *)
Definition char_refs : list (str * char) :=
  [ (lit "&amp;", AMP); (lit "&lt;", LT); (lit "&gt;", GT);
    (lit "&quot;", DQUOTE); (lit "&#x27;", SQUOTE) ].

Fixpoint starts_with (p s : str) : bool :=
  match p, s with
  | [], _ => true
  | a :: p', b :: s' => (a =? b) && starts_with p' s'
  | _ :: _, [] => false
  end.

(** The reference at the start of [s], if there is one: the character it
    stands for and its length. *)
Definition char_ref (s : str) : option (char * nat) :=
  (λ r, (r.2, length r.1)) <$> List.find (λ r, starts_with r.1 s) char_refs.

(** Reading HTML text back: each reference gives its character, every
    other character stands for itself. *)
Equations? unescape (s : str) : str by wf (length s) lt :=
  unescape [] := [];
  unescape (c :: s) with char_ref (c :: s) := {
    | Some (d, n) := d :: unescape (drop (pred n) s);
    | None := c :: unescape s }.
Proof. all: rewrite ?length_drop; lia. Qed.

(** The number of places of [s] at which [p] starts. *)
Fixpoint occurrences (p s : str) : nat :=
  match s with
  | [] => 0
  | _ :: s' => (if starts_with p s then 1 else 0) + occurrences p s'
  end.

(** The opening tag of a member block. *)
Definition block_tag : str := lit "<div class='member-block'>".

(** What [escape] writes for one character. *)
Definition escape_char (c : char) : str :=
  if decide (c = AMP) then lit "&amp;"
  else if decide (c = LT) then lit "&lt;"
  else if decide (c = GT) then lit "&gt;"
  else if decide (c = DQUOTE) then lit "&quot;"
  else if decide (c = SQUOTE) then lit "&#x27;"
  else [c].

(** The characters that [escape] takes out besides the ampersand. *)
Definition markup : str := [LT; GT; DQUOTE; SQUOTE].

(** A text of white space only. *)
Definition blank (s : str) : Prop := Forall (λ c, isspace c = true) s.

(** [clash p u]: [u] differs from [p] at a place that both have. *)
Fixpoint clash (p u : str) : bool :=
  match p, u with
  | a :: p', b :: u' => negb (a =? b) || clash p' u'
  | _, _ => false
  end.

(** [inert p s]: [p] starts nowhere in [s], whatever follows [s]. *)
Fixpoint inert (p s : str) : bool :=
  match s with
  | [] => true
  | _ :: s' => clash p s && inert p s'
  end.

(** ** Sample inputs *)

Definition summary_elem (s : list N) : Element :=
  mkElement (lit "summary") ∅ (Some s) None [].

Definition member_elem (name : string) (cs : list Element) : Element :=
  mkElement (lit "member") {[ lit "name" := lit name ]} None None cs.

(** [<doc><assembly/><members> <member name="Foo.Bar">..</member>
    <member name="B">..</member> </members></doc>] *)
Definition sample_root : Element :=
  mkElement (lit "doc") ∅ None None
    [ mkElement (lit "assembly") ∅ None None [];
      mkElement (lit "members") ∅ None None
        [ member_elem "Foo.Bar" [summary_elem (lit " Does a <thing> & 'more'. ")];
          member_elem "B" [] ] ].




(** A stand-in for the XML parser in the examples: an empty file is not
    well-formed, every other file holds the sample document. *)
Definition sample_parser (bytes : list N) : list N + Element :=
  match bytes with
  | [] => inl (lit "no element found: line 1, column 0")
  | _ => inr sample_root
  end.

Definition sample_world : World :=
  mkWorld {[ lit "doc.xml" := File (lit "<doc/>");
             lit "empty.xml" := File [];
             lit "out.html" := File (lit "old") ]} [].

(** A platform for the examples: paths are printed as they are given
    and name what the map holds under them, every directory is there,
    the page is written at once as UTF-8 with its line ends as they are,
    and the console takes every line. *)
Definition sample_write_text (p : str) (data : str) : IO () := λ w,
  match fs w !! p with
  | Some Dir => (w, inl IsADirectoryError)
  | _ =>
    match utf8_encode data with
    | Some bytes => (mkWorld (<[p := File bytes]> (fs w)) (stdout w), inr ())
    | None => (mkWorld (<[p := File []]> (fs w)) (stdout w), inl UnicodeEncodeError)
    end
  end.

Definition sample_print (line : str) : IO () := λ w,
  (mkWorld (fs w) (stdout w ++ [line]), inr ()).

Definition sample_platform : Platform :=
  mkPlatform id sample_write_text sample_print.

(** ** The entry point *)

(** The characters that the source file has in front of its error
    messages. *)
Definition error_mark : str := [8218; 249; 229].

Definition main_input_file : str :=
  lit "C:\Users\rofli\iCloudDrive\Source\NuGetInspectorApp\NuGetInspectorApp\bin\Debug\net9.0\NuGetInspectorApp.xml".

Definition main_output_file : str := lit "NuGetInspectorApp_Doc_Styled.html".

(** A world that holds the input file of the entry point. *)
Definition main_world : World :=
  mkWorld {[ main_input_file := File (lit "<doc/>") ]} [].

Section EntryPoint.

Variable parse_xml : list N → str + Element.

Variable P : Platform.

(** [str(e)] of an exception that the operating system or the codec
    raised: the text is theirs. *)
Variable os_message : exn → str.

(** [str(e)]: the exceptions that the script or the parser raise carry
    their message. *)
Definition exn_str (e : exn) : str :=
  match e with
  | FileNotFoundError msg | ParseError msg => msg
  | _ => os_message e
  end.

(** [main()]: the conversion of the fixed pair of paths inside [try];
    each [except] clause prints one line, and what that [print] raises
    leaves the function. *)
Definition main : IO () := λ w,
  let input_file := main_input_file in
  let output_file := main_output_file in
  match convert_xml_to_html parse_xml P input_file output_file w with
  | (w, inr _) => (w, inr ())
  | (w, inl e) =>
    match handler e with
    | NotFound => print P (error_mark ++ lit " Error: " ++ exn_str e) w
    | Parse => print P (error_mark ++ lit " XML Parse Error: " ++ exn_str e) w
    | Unexpected => print P (error_mark ++ lit " Unexpected error: " ++ exn_str e) w
    end
  end.

End EntryPoint.

(** ** Reading the page back, continued *)

(** A Unicode scalar value: a code point up to [0x10FFFF] that is no
    surrogate. *)
Definition scalar (c : char) : bool :=
  (c <? 55296) || ((57343 <? c) && (c <? 1114112)).

(** [closed p s]: wherever [p] starts inside [s] it also ends inside
    [s], whatever follows [s]. *)
Fixpoint closed (p s : str) : bool :=
  match s with
  | [] => true
  | _ :: s' => (clash p s || starts_with p s) && closed p s'
  end.

(** The places of the template at which text of the document is put
    in: what stands in front of the title, of a name and of a summary. *)
Definition seams : list str :=
  [ lit "    <title>"; lit "    <h1>";
    lit "        <h2><code class='member-name'>"; lit "        <p>" ].

(** A tag [p] that starts with an angle bracket, holds no line end and
    does not run across a seam of the template. *)
Definition template_tag (p : str) : bool :=
  bool_decide (head p = Some LT) && bool_decide (LF ∉ p)
  && forallb (closed p) seams.

(** The block of a member without name and summary text; [placeholder]
    says whether its paragraph holds the placeholder. *)
Definition bare_block (placeholder : bool) : list str :=
  [ div_open;
    lit "        <h2><code class='member-name'>" ++ lit "</code></h2>";
    lit "        <p>" ++ (if placeholder then no_summary else []) ++ lit "</p>";
    lit "    </div>" ].

(** Whether the summary of a member is the placeholder. *)
Definition has_placeholder (m : Element) : bool :=
  bool_decide ((extract_member_info m).2 = no_summary).

(** The page of a document with every text taken out: empty title,
    empty names, empty summaries; the placeholders stay. *)
Definition skeleton (root : Element) : str :=
  join [LF] (html_head []
             ++ (findall_descendants (lit "member") root
                 ≫= λ n, bare_block (has_placeholder n.2))
             ++ html_foot).

(** Text that UTF-8 can hold: scalar values only. *)
Definition encodable (s : str) : Prop := Forall (λ c, scalar c = true) s.

(** The characters that [escape] rewrites. *)
Definition special : str := AMP :: markup.

(** ** Reading the console and the files *)

(** The number that a string of decimal digits stands for. *)
Definition digit_value (c : char) : option nat :=
  if (48 <=? c) && (c <=? 57) then Some (N.to_nat (c - 48)) else None.

Definition read_digit (acc : option nat) (c : char) : option nat :=
  a ← acc; d ← digit_value c; Some (10 * a + d)%nat.

Definition decimal_value (s : str) : option nat :=
  match s with
  | [] => None
  | _ => foldl read_digit (Some 0%nat) s
  end.

(** What the statements about the files ask of the platform.  Writing
    to [output] leaves what the path [q] names as it was. *)
Definition write_keeps (P : Platform) (output q : str) : Prop :=
  ∀ data w, fs (write_text P output data w).1 !! q = fs w !! q.

(** Printing changes no file. *)
Definition print_keeps_files (P : Platform) : Prop :=
  ∀ line w, fs (print P line w).1 = fs w.

(** Writing to [output] what has just been written there changes
    nothing more. *)
Definition rewrite_stable (P : Platform) (output : str) : Prop :=
  ∀ data w v,
    fs v = fs (write_text P output data w).1 →
    fs (write_text P output data v).1 = fs v.

(** * Properties *)

(** ** Strings *)

Section Strings.

Implicit Types (c : N) (s t p : list N).

Lemma replace_app old new s t :
  replace old new (s ++ t) = replace old new s ++ replace old new t.
Proof. apply bind_app. Qed.

Lemma escape_nil : escape [] = [].
Proof. reflexivity. Qed.

Lemma escape_app s t : escape (s ++ t) = escape s ++ escape t.
Proof. unfold escape. by rewrite !replace_app. Qed.

Lemma escape_singleton c : escape [c] = escape_char c.
Proof.
  unfold escape_char.
  repeat case_decide; subst; try reflexivity.
  unfold escape, replace; simpl.
  repeat (rewrite decide_False by done; simpl).
  reflexivity.
Qed.

(** The five replacements in a row are one pass over the text. *)
Lemma escape_cons c s : escape (c :: s) = escape_char c ++ escape s.
Proof. by rewrite <-escape_singleton, <-escape_app. Qed.

Lemma escape_bind s : escape s = s ≫= escape_char.
Proof.
  induction s as [|c s IH]; [done|].
  by rewrite escape_cons, IH.
Qed.

Lemma starts_with_cons_ne a p c s :
  a ≠ c → starts_with (a :: p) (c :: s) = false.
Proof. intros Hne. simpl. by rewrite (proj2 (N.eqb_neq a c)). Qed.

Lemma find_all_false {A} (f : A → bool) (l : list A) :
  Forall (λ x, f x = false) l → List.find f l = None.
Proof. induction 1 as [|x l Hx _ IH]; simpl; [done|by rewrite Hx]. Qed.

Lemma char_refs_amp : Forall (λ r, ∃ p, r.1 = AMP :: p) char_refs.
Proof. repeat constructor; by eexists. Qed.

Lemma char_ref_not_amp c s : c ≠ AMP → char_ref (c :: s) = None.
Proof.
  intros Hne. unfold char_ref. rewrite find_all_false; [done|].
  eapply Forall_impl; [apply char_refs_amp|].
  intros r [p ->]. by apply starts_with_cons_ne.
Qed.

Lemma unescape_literal c s : c ≠ AMP → unescape (c :: s) = c :: unescape s.
Proof. intros Hne. simp unescape. by rewrite char_ref_not_amp. Qed.

Lemma unescape_step c s d n :
  char_ref (c :: s) = Some (d, n) →
  unescape (c :: s) = d :: unescape (drop (pred n) s).
Proof. intros H. simp unescape. by rewrite H. Qed.

(** A reference at the start of a text is read as its character. *)
Lemma unescape_ref r s : r ∈ char_refs → unescape (r.1 ++ s) = r.2 :: unescape s.
Proof.
  unfold char_refs. rewrite !elem_of_cons, elem_of_nil.
  intros [->|[->|[->|[->|[->|[]]]]]].
  - exact (unescape_step AMP (lit "amp;" ++ s) AMP 5 eq_refl).
  - exact (unescape_step AMP (lit "lt;" ++ s) LT 4 eq_refl).
  - exact (unescape_step AMP (lit "gt;" ++ s) GT 4 eq_refl).
  - exact (unescape_step AMP (lit "quot;" ++ s) DQUOTE 6 eq_refl).
  - exact (unescape_step AMP (lit "#x27;" ++ s) SQUOTE 6 eq_refl).
Qed.

Lemma amp_is_ref : AMP ∈ snd <$> char_refs.
Proof. apply list_elem_of_here. Qed.

Lemma markup_is_ref x : x ∈ markup → x ∈ snd <$> char_refs.
Proof.
  unfold markup, char_refs. simpl. rewrite !elem_of_cons. tauto.
Qed.

Lemma escape_char_cases c :
  (∃ r, r ∈ char_refs ∧ c = r.2 ∧ escape_char c = r.1)
  ∨ (c ∉ snd <$> char_refs) ∧ escape_char c = [c].
Proof.
  destruct (decide (c ∈ snd <$> char_refs)) as [Hc|Hc].
  - left. apply list_elem_of_fmap in Hc as (r & -> & Hr).
    exists r. split_and!; [done..|].
    unfold char_refs in Hr. rewrite !elem_of_cons, elem_of_nil in Hr.
    by destruct Hr as [->|[->|[->|[->|[->|[]]]]]].
  - right. split; [done|]. unfold char_refs in Hc. simpl in Hc.
    rewrite !not_elem_of_cons in Hc. destruct Hc as (?&?&?&?&?&_).
    unfold escape_char. by rewrite !decide_False by done.
Qed.

Lemma unescape_escape_char c s :
  unescape (escape_char c ++ s) = c :: unescape s.
Proof.
  destruct (escape_char_cases c) as [(r & Hr & -> & ->)|[Hne ->]].
  - by apply unescape_ref.
  - apply unescape_literal. intros ->. apply Hne. apply amp_is_ref.
Qed.

(** Reading back what [escape] wrote gives the text that was escaped. *)
Lemma unescape_escape s : unescape (escape s) = s.
Proof.
  induction s as [|c s IH]; [by simp unescape|].
  by rewrite escape_cons, unescape_escape_char, IH.
Qed.

Lemma escape_inj s t : escape s = escape t → s = t.
Proof. intros H. by rewrite <-(unescape_escape s), H, unescape_escape. Qed.

Lemma char_refs_no_markup :
  Forall (λ r, Forall (λ y, y ∉ markup) r.1) char_refs.
Proof. apply (bool_decide_unpack _). by vm_compute. Qed.

Lemma escape_char_no_markup c x : x ∈ markup → x ∉ escape_char c.
Proof.
  intros Hx Hin.
  destruct (escape_char_cases c) as [(r & Hr & _ & Hrc)|[Hne Hc]].
  - rewrite Hrc in Hin.
    pose proof char_refs_no_markup as H.
    rewrite Forall_forall in H. specialize (H r Hr).
    rewrite Forall_forall in H. by apply (H x).
  - rewrite Hc in Hin. apply list_elem_of_singleton in Hin as ->.
    apply Hne. by apply markup_is_ref.
Qed.

(** No angle bracket and no quote is left in an escaped text. *)
Lemma escape_no_markup s x : x ∈ markup → x ∉ escape s.
Proof.
  intros Hx. induction s as [|c s IH]; [by apply not_elem_of_nil|].
  rewrite escape_cons, elem_of_app.
  intros [?|?]; [by eapply escape_char_no_markup|done].
Qed.

Lemma char_refs_shape :
  Forall (λ r, ∃ tl, r.1 = AMP :: tl ∧ (AMP ∉ tl)
                     ∧ ∀ s, is_Some (char_ref (fst r ++ s))) char_refs.
Proof.
  repeat constructor; eexists; (split_and!; [reflexivity| |by eexists]);
    apply (bool_decide_unpack _); by vm_compute.
Qed.

(** In what [escape] writes for one character an ampersand is at the
    start only, and starts a reference. *)
Lemma escape_char_amp c a b s :
  escape_char c = a ++ AMP :: b →
  a = [] ∧ is_Some (char_ref (AMP :: b ++ s)).
Proof.
  destruct (escape_char_cases c) as [(r & Hr & _ & ->)|[Hne ->]].
  - pose proof char_refs_shape as H. rewrite Forall_forall in H.
    destruct (H r Hr) as (tl & Hr1 & Htl & Href).
    intros Heq. specialize (Href s). rewrite Heq in Href.
    rewrite Hr1 in Heq. destruct a as [|x a].
    + split; [done|]. by rewrite <-app_assoc in Href.
    + injection Heq as _ ->. destruct Htl.
      apply elem_of_app. right. apply list_elem_of_here.
  - destruct a as [|? [|? a]]; [|done..].
    intros [= ->]. destruct Hne. apply amp_is_ref.
Qed.

(** Every ampersand of an escaped text starts a character reference. *)
Lemma escape_amp_ref s a b :
  escape s = a ++ AMP :: b → is_Some (char_ref (AMP :: b)).
Proof.
  revert a. induction s as [|c s IH]; intros a.
  - by destruct a.
  - rewrite escape_cons. intros H.
    apply app_eq_inv in H as [(k & Hc & Hs)|(k & Ha & Hs)].
    + destruct k as [|x k].
      * apply (IH []). by rewrite Hs.
      * injection Hs as <- ->.
        by apply escape_char_amp with (s := escape s) in Hc as [_ Hc].
    + by apply (IH k).
Qed.

End Strings.

(** ** White space *)

Section Strip.

Implicit Types (c : N) (s t : list N).



(** What [lstrip] leaves starts with a character that is no space. *)
Lemma lstrip_head s c u : lstrip s = c :: u → isspace c = false.
Proof.
  induction s as [|d s IH]; simpl; [done|].
  destruct (isspace d) eqn:Hd; [done|]. by intros [= <- _].
Qed.




Lemma lstrip_decompose s : ∃ a, s = a ++ lstrip s ∧ blank a.
Proof.
  induction s as [|c s (a & Hs & Ha)]; simpl.
  - exists []. split; [done|constructor].
  - destruct (isspace c) eqn:Hc.
    + exists (c :: a). split; [by rewrite Hs at 1|by constructor].
    + exists []. split; [done|constructor].
Qed.

Lemma rstrip_decompose s : ∃ b, s = rstrip s ++ b ∧ blank b.
Proof.
  unfold rstrip. destruct (lstrip_decompose (reverse s)) as (a & Hs & Ha).
  exists (reverse a). split.
  - by rewrite <-reverse_app, <-Hs, reverse_involutive.
  - unfold blank. by rewrite Forall_reverse.
Qed.

(** [strip] cuts white space off both ends and nothing else: what is
    left neither starts nor ends with a space. *)
Lemma strip_decompose s :
  ∃ a b, s = a ++ strip s ++ b ∧ blank a ∧ blank b
         ∧ (∀ c, head (strip s) = Some c → isspace c = false)
         ∧ (∀ c, last (strip s) = Some c → isspace c = false).
Proof.
  destruct (lstrip_decompose s) as (a & Hs & Ha).
  destruct (rstrip_decompose (lstrip s)) as (b & Hu & Hb).
  exists a, b. unfold strip. split_and!; [by rewrite <-Hu|done..| |].
  - intros c Hc. destruct (rstrip (lstrip s)) as [|c' u] eqn:Hr; [done|].
    injection Hc as ->.
    destruct (lstrip s) as [|d v] eqn:Hl; [done|].
    injection Hu as <- _. by apply lstrip_head in Hl.
  - intros c Hc. unfold rstrip in Hc. rewrite last_reverse in Hc.
    destruct (lstrip (reverse (lstrip s))) as [|d v] eqn:Hl; [done|].
    injection Hc as ->. by apply lstrip_head in Hl.
Qed.

End Strip.

(** ** Trees *)

Section Trees.

Implicit Types (e c x : Element) (cs : list Element) (p q : list nat)
  (t : list N).

Lemma filter_all {A} (P : A → Prop) `{!∀ y, Decision (P y)} (l : list A) :
  Forall P l → filter P l = l.
Proof.
  induction 1 as [|y l Hy _ IH]; [done|].
  by rewrite filter_cons_True, IH.
Qed.

Lemma sorted_NoDup {A} (R : relation A) (l : list A) :
  (∀ y, ¬ R y y) → StronglySorted R l → NoDup l.
Proof.
  intros Hirr. induction 1 as [|y l _ IH Hy]; constructor; [|done].
  intros Hin. rewrite Forall_forall in Hy. by apply (Hirr y), Hy.
Qed.

Lemma iter_unfold t e :
  iter t e = (if decide (tag e = t) then [([], e)] else [])
             ++ iter_children (iter t) 0 (children e).
Proof. by destruct e. Qed.

Lemma elem_of_iter_children f i cs q x :
  (q, x) ∈ iter_children f i cs
  ↔ ∃ k c p, q = (i + k)%nat :: p ∧ cs !! k = Some c ∧ (p, x) ∈ f c.
Proof.
  revert i. induction cs as [|c cs IH]; intros i; simpl.
  - rewrite elem_of_nil. split; [done|]. by intros (k & ? & ? & _ & ? & _).
  - rewrite elem_of_app, list_elem_of_fmap, IH. split.
    + intros [([p y] & [= -> ->] & Hin)|(k & c' & p & -> & Hk & Hin)].
      * exists 0%nat, c, p. by rewrite Nat.add_0_r.
      * exists (S k), c', p. split_and!; [f_equal; lia|done..].
    + intros ([|k] & c' & p & -> & Hk & Hin); simpl in Hk.
      * left. injection Hk as ->. exists (p, x). by rewrite Nat.add_0_r.
      * right. exists k, c', p. split_and!; [f_equal; lia|done..].
Qed.

(** [iter] yields the elements of the tree that carry the tag, each
    with its position. *)
Lemma elem_of_iter t e p x :
  (p, x) ∈ iter t e ↔ lookup_path e p = Some x ∧ tag x = t.
Proof.
  revert p. induction e as [t' a tx tl cs IH] using Element_ind; intros p.
  rewrite iter_unfold, elem_of_app, elem_of_iter_children. simpl.
  rewrite Forall_lookup in IH. split.
  - intros [Hself|(k & c & p' & -> & Hk & Hin)].
    + case_decide; [|by apply elem_of_nil in Hself].
      by apply list_elem_of_singleton in Hself as [= -> ->].
    + apply (IH k c Hk) in Hin as [Hx Ht]. simpl. by rewrite Hk.
  - intros [Hx Ht]. destruct p as [|k p']; simpl in Hx.
    + injection Hx as <-. left. simpl in Ht. rewrite decide_True by done.
      apply list_elem_of_here.
    + destruct (cs !! k) as [c|] eqn:Hk; [|done]. simpl in Hx.
      right. exists k, c, p'. split_and!; [done..|]. by apply (IH k c Hk).
Qed.

Lemma doc_lt_irrefl p : ¬ doc_lt p p.
Proof.
  induction p as [|i p IH]; simpl; [tauto|].
  intros [?|[_ ?]]; [lia|by apply IH].
Qed.

Lemma doc_lt_trans p q r : doc_lt p q → doc_lt q r → doc_lt p r.
Proof.
  revert q r. induction p as [|i p IH]; intros [|j q] [|k r]; simpl; try done.
  intros [?|[-> ?]] [?|[-> ?]]; [left; lia..|]. right. split; [done|]. by eapply IH.
Qed.

Lemma iter_children_sorted f i cs :
  Forall (λ c, StronglySorted doc_lt (f c).*1) cs →
  StronglySorted doc_lt (iter_children f i cs).*1.
Proof.
  intros Hcs. revert i. induction Hcs as [|c cs Hc _ IH]; intros i; simpl.
  - constructor.
  - rewrite fmap_app. apply StronglySorted_app_2.
    + intros p q Hp Hq.
      apply list_elem_of_fmap in Hp as ([p' x] & -> & Hp).
      apply list_elem_of_fmap in Hp as ([p'' x'] & [= -> ->] & Hp).
      apply list_elem_of_fmap in Hq as ([q' y] & -> & Hq).
      apply elem_of_iter_children in Hq as (k & ? & q'' & -> & _).
      simpl. left. lia.
    + rewrite <-list_fmap_compose.
      change (fst ∘ under i) with (cons i ∘ (fst : list nat * Element → _)).
      rewrite list_fmap_compose.
      apply (StronglySorted_fmap _ doc_lt); [|done].
      intros p q Hpq. simpl. by right.
    + apply IH.
Qed.

(** [iter] yields the elements in document order, none of them twice. *)
Lemma iter_sorted t e : StronglySorted doc_lt (iter t e).*1.
Proof.
  induction e as [t' a tx tl cs IH] using Element_ind.
  rewrite iter_unfold, fmap_app. simpl.
  apply StronglySorted_app_2.
  - intros p q Hp Hq. case_decide; [|by apply elem_of_nil in Hp].
    apply list_elem_of_singleton in Hp as ->.
    apply list_elem_of_fmap in Hq as ([q' y] & -> & Hq).
    by apply elem_of_iter_children in Hq as (k & ? & q'' & -> & _).
  - case_decide; repeat constructor.
  - by apply iter_children_sorted.
Qed.

(** The element the search starts at is the only one that
    [findall_descendants] leaves out. *)
Lemma findall_descendants_children t e :
  findall_descendants t e = iter_children (iter t) 0 (children e).
Proof.
  unfold findall_descendants. rewrite iter_unfold, filter_app.
  replace (filter _ (if decide (tag e = t) then [([], e)] else [])) with
    (@nil (list nat * Element)) by (by case_decide).
  simpl. apply filter_all.
  apply Forall_forall. intros [q x] Hq.
  by apply elem_of_iter_children in Hq as (k & ? & q' & -> & _).
Qed.

Lemma elem_of_findall_descendants t e p x :
  (p, x) ∈ findall_descendants t e
  ↔ p ≠ [] ∧ lookup_path e p = Some x ∧ tag x = t.
Proof.
  unfold findall_descendants.
  rewrite list_elem_of_filter, elem_of_iter. simpl. tauto.
Qed.

Lemma findall_descendants_sorted t e :
  StronglySorted doc_lt (findall_descendants t e).*1.
Proof.
  rewrite findall_descendants_children. apply iter_children_sorted.
  apply Forall_forall. intros c _. apply iter_sorted.
Qed.

Lemma findall_descendants_NoDup t e : NoDup (findall_descendants t e).*1.
Proof.
  eapply sorted_NoDup; [|apply findall_descendants_sorted].
  intros p. apply doc_lt_irrefl.
Qed.

End Trees.

(** ** Counting a tag in a text *)

Section Occurrences.

Implicit Types (c : N) (s t p u : list N).

(** A text [p] without the separator does not run across it. *)
Lemma starts_with_sep p s t c :
  c ∉ p → starts_with p (s ++ c :: t) = starts_with p s.
Proof.
  revert s. induction p as [|a p IH]; intros s Hc; [done|].
  apply not_elem_of_cons in Hc as [Hca Hc].
  destruct s as [|b s]; simpl.
  - by rewrite (proj2 (N.eqb_neq a c)).
  - by rewrite IH.
Qed.

Lemma occurrences_sep p s t c :
  p ≠ [] → c ∉ p →
  occurrences p (s ++ c :: t) = (occurrences p s + occurrences p t)%nat.
Proof.
  intros Hp Hc. induction s as [|b s IH].
  - destruct p as [|a p]; [done|].
    apply not_elem_of_cons in Hc as [Hca Hc].
    simpl. by rewrite (proj2 (N.eqb_neq a c)).
  - change ((b :: s) ++ c :: t) with (b :: (s ++ c :: t)).
    cbn [occurrences]. rewrite IH.
    change (b :: s ++ c :: t) with ((b :: s) ++ c :: t).
    rewrite starts_with_sep by done. lia.
Qed.

(** In fragments joined by a separator, a text without the separator
    occurs as often as in the fragments taken one by one. *)
Lemma occurrences_join p c parts :
  p ≠ [] → c ∉ p →
  occurrences p (join [c] parts) = sum_list_with (occurrences p) parts.
Proof.
  intros Hp Hc. induction parts as [|s [|s' parts] IH]; simpl in *.
  - done.
  - lia.
  - by rewrite occurrences_sep, IH.
Qed.

Lemma clash_starts_with p u t : clash p u = true → starts_with p (u ++ t) = false.
Proof.
  revert u. induction p as [|a p IH]; intros [|b u]; simpl; try done.
  destruct (a =? b); simpl; [apply IH|done].
Qed.

Lemma occurrences_inert p s t :
  inert p s = true → occurrences p (s ++ t) = occurrences p t.
Proof.
  induction s as [|b s IH]; [done|].
  cbn [inert]. intros [Hc Hs]%andb_true_iff.
  change ((b :: s) ++ t) with (b :: (s ++ t)). cbn [occurrences].
  change (b :: (s ++ t)) with ((b :: s) ++ t).
  by rewrite clash_starts_with, IH.
Qed.

Lemma inert_no_head a p s : a ∉ s → inert (a :: p) s = true.
Proof.
  induction s as [|b s IH]; [done|].
  intros [Hab Hs]%not_elem_of_cons. simpl.
  by rewrite (proj2 (N.eqb_neq a b)), IH.
Qed.

End Occurrences.

(** ** The renderer *)

Section Renderer.

Implicit Types (m root : Element) (s t : list N).

(** The loop appends one block for each member, in the order of the
    list it runs over. *)
Lemma fold_left_blocks (members : list (list nat * Element)) (init : list (list N)) :
  fold_left (λ html_parts member, html_parts ++ member_block member.2)
            members init
  = init ++ (members ≫= λ member, member_block member.2).
Proof.
  revert init. induction members as [|m ms IH]; intros init; simpl.
  - by rewrite app_nil_r.
  - by rewrite IH, <-app_assoc.
Qed.

Lemma join_app (sep : list N) (a b : list (list N)) :
  a ≠ [] → b ≠ [] → join sep (a ++ b) = join sep a ++ sep ++ join sep b.
Proof.
  intros Ha Hb. induction a as [|s [|s' a] IH]; [done| |].
  - by destruct b.
  - change (join sep ((s :: s' :: a) ++ b))
      with (s ++ sep ++ join sep ((s' :: a) ++ b)).
    rewrite IH by done. simpl. by rewrite <-!app_assoc.
Qed.

Lemma html_parts_blocks root title :
  html_parts root title
  = html_head (default default_title title)
    ++ (findall_descendants (lit "member") root ≫= λ n, member_block n.2)
    ++ html_foot.
Proof. unfold html_parts. by rewrite fold_left_blocks, <-app_assoc. Qed.

Lemma block_tag_head : ∃ p, block_tag = LT :: p.
Proof. by eexists. Qed.

Lemma inert_escape s : inert block_tag (escape s) = true.
Proof.
  destruct block_tag_head as [p ->]. apply inert_no_head.
  apply escape_no_markup, list_elem_of_here.
Qed.

Lemma occurrences_wrapped pre mid post :
  inert block_tag pre = true → inert block_tag mid = true →
  occurrences block_tag post = 0%nat →
  occurrences block_tag (pre ++ mid ++ post) = 0%nat.
Proof. intros Hpre Hmid Hpost. by rewrite !occurrences_inert. Qed.

Lemma summary_cases m :
  (extract_member_info m).2 = no_summary
  ∨ ∃ e t, find (lit "summary") m = Some e ∧ text e = Some t ∧ t ≠ []
           ∧ (extract_member_info m).2 = escape (strip t).
Proof.
  unfold extract_member_info. simpl.
  destruct (find _ m) as [e|]; [|by left].
  destruct (text e) as [[|c t]|] eqn:Ht; [by left| |by left].
  right. by exists e, (c :: t).
Qed.

Lemma summary_some m (e : Element) t :
  find (lit "summary") m = Some e → text e = Some t → t ≠ [] →
  (extract_member_info m).2 = escape (strip t).
Proof.
  intros He Ht Hne. unfold extract_member_info. simpl.
  rewrite He, Ht. by destruct t.
Qed.

Lemma escape_not_placeholder s : escape s ≠ no_summary.
Proof.
  intros Heq. apply (escape_no_markup s LT); [apply list_elem_of_here|].
  rewrite Heq. apply list_elem_of_here.
Qed.

Lemma inert_summary m : inert block_tag (extract_member_info m).2 = true.
Proof.
  destruct (summary_cases m) as [->|(e & t & _ & _ & _ & ->)].
  - by vm_compute.
  - apply inert_escape.
Qed.

Lemma html_head_no_block t :
  sum_list_with (occurrences block_tag) (html_head t) = 0%nat.
Proof.
  unfold html_head. cbn [sum_list_with].
  rewrite !occurrences_wrapped by first [apply inert_escape | by vm_compute].
  by vm_compute.
Qed.

Lemma html_foot_no_block :
  sum_list_with (occurrences block_tag) html_foot = 0%nat.
Proof. by vm_compute. Qed.

Lemma member_block_one m :
  sum_list_with (occurrences block_tag) (member_block m) = 1%nat.
Proof.
  unfold member_block. pose proof (inert_summary m) as Hs.
  destruct (extract_member_info m) as [name summary]. simpl in Hs.
  cbn [sum_list_with].
  rewrite !occurrences_wrapped by first [apply inert_escape | done | by vm_compute].
  by vm_compute.
Qed.

Lemma blocks_count (ms : list (list nat * Element)) :
  sum_list_with (occurrences block_tag) (ms ≫= λ n, member_block n.2)
  = length ms.
Proof.
  induction ms as [|n ms IH]; [done|].
  by rewrite bind_cons, sum_list_with_app, member_block_one, IH.
Qed.

(** The page has as many opening tags of a member block as the search
    finds members. *)
Lemma occurrences_generate root title :
  occurrences block_tag (generate_html_content root title)
  = length (findall_descendants (lit "member") root).
Proof.
  unfold generate_html_content.
  rewrite occurrences_join; [|done|by apply (bool_decide_unpack _); vm_compute].
  rewrite html_parts_blocks, !sum_list_with_app.
  rewrite html_head_no_block, html_foot_no_block, blocks_count. lia.
Qed.

End Renderer.

(** ** Decimal numerals *)

Section Numerals.

Implicit Types (n d : nat).

Lemma decimal_unfold_step n :
  decimal n = if decide (n < 10)%nat then [digit n]
              else decimal (n / 10) ++ [digit (n mod 10)].
Proof. rewrite decimal_equation_1. by destruct (decide _). Qed.

Lemma digit_value_digit d : (d < 10)%nat → digit_value (digit d) = Some d.
Proof.
  intros Hd. unfold digit_value, digit.
  rewrite !(proj2 (N.leb_le _ _)) by lia.
  cbn [andb]. f_equal. lia.
Qed.

Lemma decimal_read n :
  decimal n ≠ [] ∧ foldl read_digit (Some 0%nat) (decimal n) = Some n.
Proof.
  induction (lt_wf n) as [n _ IH]. rewrite decimal_unfold_step.
  destruct (decide (n < 10)%nat) as [Hn|Hn].
  - split; [done|]. cbn [foldl]. unfold read_digit. cbn [mbind option_bind].
    rewrite digit_value_digit by done. cbn [mbind option_bind]. f_equal; lia.
  - destruct (IH (n / 10)%nat) as [Hne Hread]; [apply Nat.div_lt; lia|]. split.
    + by destruct (decimal (n / 10)).
    + rewrite foldl_app, Hread. cbn [foldl]. unfold read_digit.
      cbn [mbind option_bind].
      rewrite digit_value_digit by (apply Nat.mod_upper_bound; lia).
      cbn [mbind option_bind]. f_equal. pose proof (Nat.div_mod_eq n 10). lia.
Qed.

(** The digits of a count are read back as the count. *)
Lemma decimal_value_decimal n : decimal_value (decimal n) = Some n.
Proof.
  destruct (decimal_read n) as [Hne H]. unfold decimal_value.
  by destruct (decimal n).
Qed.

End Numerals.

(** * Main theorems *)

(** C1: every [member] element below the root, at any depth, is found
    once, the elements found are in document order, the page holds one
    block for each of them in that order, and so it has as many
    opening tags of a member block as the document has members. *)
Theorem member_blocks_in_document_order (root : Element) (title : option (list N)) :
  let members := findall_descendants (lit "member") root in
  (∀ p e, (p, e) ∈ members
          ↔ p ≠ [] ∧ lookup_path root p = Some e ∧ tag e = lit "member")
  ∧ StronglySorted doc_lt members.*1
  ∧ NoDup members.*1
  ∧ generate_html_content root title
    = join [LF] (html_head (default default_title title)
                 ++ (members ≫= λ n, member_block n.2) ++ html_foot)
  ∧ occurrences block_tag (generate_html_content root title) = length members.
Proof.
  intros members. split_and!.
  - intros p e. apply elem_of_findall_descendants.
  - apply findall_descendants_sorted.
  - apply findall_descendants_NoDup.
  - unfold generate_html_content. by rewrite html_parts_blocks.
  - apply occurrences_generate.
Qed.



(** C3: in the summary of a member whose summary text is not empty, no
    angle bracket and no quote is left, every ampersand starts a
    character reference, and reading the references back gives the
    trimmed summary text as it was. *)
Theorem summary_round_trip (m e : Element) (t : list N) :
  find (lit "summary") m = Some e → text e = Some t → t ≠ [] →
  let summary := (extract_member_info m).2 in
  (∀ c, c ∈ markup → c ∉ summary)
  ∧ (∀ a b, summary = a ++ AMP :: b → is_Some (char_ref (AMP :: b)))
  ∧ unescape summary = strip t.
Proof.
  intros He Ht Hne summary. subst summary.
  rewrite (summary_some m e t) by done. split_and!.
  - intros c Hc. by apply escape_no_markup.
  - intros a b. apply escape_amp_ref.
  - apply unescape_escape.
Qed.

Lemma summary_round_trip_witness :
  let m := member_elem "Foo.Bar" [summary_elem (lit " Does a <thing> & 'more'. ")] in
  (extract_member_info m).2 = lit "Does a &lt;thing&gt; &amp; &#x27;more&#x27;."
  ∧ unescape (extract_member_info m).2 = lit "Does a <thing> & 'more'.".
Proof.
  intros m. split; [by vm_compute|].
  refine (proj2 (proj2 (summary_round_trip m
            (summary_elem (lit " Does a <thing> & 'more'. "))
            (lit " Does a <thing> & 'more'. ") _ _ _))); by vm_compute.
Defined.

(** C4: the identifier is the value of the [name] attribute when the
    element has one and ["Unknown"] when it has none, and the heading of
    the block is made of it. *)
Theorem identifier_rule (m : Element) :
  let name := (extract_member_info m).1 in
  (∀ v, attrib m !! lit "name" = Some v → name = v)
  ∧ (attrib m !! lit "name" = None → name = lit "Unknown")
  ∧ member_block m !! 1%nat
    = Some (lit "        <h2><code class='member-name'>" ++ escape name
            ++ lit "</code></h2>").
Proof.
  intros name. subst name. unfold member_block, extract_member_info. simpl.
  split_and!.
  - by intros v ->.
  - by intros ->.
  - done.
Qed.





(** C7: for a document without any [member] element below its root the
    page is the head, with the escaped title as its [h1] heading,
    followed at once by the closing tags: a whole HTML document with no
    member block in it. *)
Theorem no_members_page (root : Element) (title : option (list N)) :
  (∀ p e, p ≠ [] → lookup_path root p = Some e → tag e ≠ lit "member") →
  let t := default default_title title in
  generate_html_content root title = join [LF] (html_head t ++ html_foot)
  ∧ last (html_head t) = Some (lit "    <h1>" ++ escape t ++ lit "</h1>")
  ∧ head (html_head t ++ html_foot) = Some (lit "<!DOCTYPE html>")
  ∧ last (html_head t ++ html_foot) = Some (lit "</html>")
  ∧ occurrences block_tag (generate_html_content root title) = 0%nat.
Proof.
  intros Hnone t.
  assert (findall_descendants (lit "member") root = []) as Hms.
  { destruct (findall_descendants _ root) as [|[p e] ms] eqn:Hms; [done|].
    assert ((p, e) ∈ findall_descendants (lit "member") root) as Hin
      by (rewrite Hms; apply list_elem_of_here).
    apply elem_of_findall_descendants in Hin as (Hp & He & Ht).
    by destruct (Hnone p e). }
  split_and!; try done.
  - unfold generate_html_content. by rewrite html_parts_blocks, Hms.
  - by rewrite occurrences_generate, Hms.
Qed.

Lemma no_members_page_witness :
  let root := mkElement (lit "doc") ∅ None None
                [mkElement (lit "assembly") ∅ None None []] in
  generate_html_content root None
  = join [LF] (html_head default_title ++ html_foot)
  ∧ occurrences block_tag (generate_html_content root None) = 0%nat.
Proof.
  intros root.
  assert (∀ p e, p ≠ [] → lookup_path root p = Some e → tag e ≠ lit "member")
    as Hnone.
  { intros [|[|i] p] e Hp He; [done| |done].
    destruct p as [|j p]; [by injection He as <-|by destruct j]. }
  destruct (no_members_page root None Hnone) as (H1 & _ & _ & _ & H2).
  by split.
Defined.

Section DriverProperties.

Variable parse_xml : list N → list N + Element.
Variable P : Platform.

Implicit Types (w : World) (input output : list N).

Lemma exists_spec w p : exists_ w p = true ↔ is_Some (fs w !! p).
Proof. unfold exists_. by rewrite bool_decide_eq_true. Qed.

(** C5: when the input path does not exist, the driver raises
    [FileNotFoundError], which the entry point takes in its first
    clause, and leaves the files and the console as they were. *)
Theorem missing_input_not_found input output w :
  fs w !! Path P input = None →
  convert_xml_to_html parse_xml P input output w
  = (w, inl (FileNotFoundError (lit "Input file not found: " ++ input)))
  ∧ handler (FileNotFoundError (lit "Input file not found: " ++ input))
    = NotFound.
Proof.
  intros Hin. unfold convert_xml_to_html, exists_.
  rewrite bool_decide_eq_false_2; [done|].
  rewrite Hin. by intros [? [=]].
Qed.

(** C6: when the input is a file that the parser rejects, the driver
    raises the parser's [ParseError], which the entry point takes in
    its second clause, and leaves the files and the console as they
    were. *)
Theorem malformed_input_parse_error input output w bytes msg :
  fs w !! Path P input = Some (File bytes) → parse_xml bytes = inl msg →
  convert_xml_to_html parse_xml P input output w = (w, inl (ParseError msg))
  ∧ handler (ParseError msg) = Parse.
Proof.
  intros Hin Hparse. unfold convert_xml_to_html, exists_, et_parse.
  rewrite bool_decide_eq_true_2 by (by rewrite Hin).
  by rewrite Hin, Hparse.
Qed.

(** The input names a directory: the parser cannot open it. *)
Lemma directory_input input output w :
  fs w !! Path P input = Some Dir →
  convert_xml_to_html parse_xml P input output w = (w, inl IsADirectoryError).
Proof.
  intros Hin. unfold convert_xml_to_html, exists_, et_parse.
  rewrite bool_decide_eq_true_2 by (by rewrite Hin).
  by rewrite Hin.
Qed.

(** A run that returns has parsed the input, handed the page made of it
    under the default title to [write_text], and printed its two lines,
    and none of the three calls has raised. *)
Lemma convert_success input output w w' :
  convert_xml_to_html parse_xml P input output w = (w', inr ()) →
  ∃ root w1 w2,
    et_parse parse_xml (Path P input) w = inr root
    ∧ write_text P (Path P output) (generate_html_content root None) w
      = (w1, inr ())
    ∧ print P (written_line (Path P output)) w1 = (w2, inr ())
    ∧ print P (processed_line
                 (length (findall_descendants (lit "member") root))) w2
      = (w', inr ()).
Proof.
  unfold convert_xml_to_html.
  destruct (exists_ w _); cbn [negb]; [|done].
  destruct (et_parse _ _ w) as [e|root]; [done|].
  unfold mbind, IO_bind.
  destruct (write_text P _ _ w) as [w1 [e|[]]] eqn:Hwrite; [done|].
  destruct (print P (written_line _) w1) as [w2 [e|[]]] eqn:Hfirst; [done|].
  intros Hsecond. by exists root, w1, w2.
Qed.

(** C8: when the driver returns, the last thing it did was to print the
    line that reads [Processed], the decimal digits of a count, and
    [documentation members]; that count is the number of members found,
    and it is the number of opening tags of a member block in the page
    that the driver handed to [write_text]. *)
Theorem processed_count input output w w' :
  convert_xml_to_html parse_xml P input output w = (w', inr ()) →
  ∃ root html n digits w1 w2,
    et_parse parse_xml (Path P input) w = inr root
    ∧ html = generate_html_content root None
    ∧ write_text P (Path P output) html w = (w1, inr ())
    ∧ print P (written_line (Path P output)) w1 = (w2, inr ())
    ∧ print P ([63743; 252; 236; 228] ++ lit " Processed " ++ digits
               ++ lit " documentation members") w2
      = (w', inr ())
    ∧ decimal_value digits = Some n
    ∧ n = length (findall_descendants (lit "member") root)
    ∧ n = occurrences block_tag html.
Proof.
  intros (root & w1 & w2 & Hroot & Hwrite & Hfirst & Hsecond)%convert_success.
  exists root, (generate_html_content root None),
    (length (findall_descendants (lit "member") root)),
    (decimal (length (findall_descendants (lit "member") root))), w1, w2.
  split_and!; try done.
  - apply decimal_value_decimal.
  - by rewrite occurrences_generate.
Qed.

(** C10: the page that the driver writes is rendered without a title
    argument, so its [title] and [h1] lines hold the default title. *)
Theorem driver_default_title input output w root :
  et_parse parse_xml (Path P input) w = inr root →
  let html := generate_html_content root None in
  convert_xml_to_html parse_xml P input output w
  = (write_text P (Path P output) html;;
     print P (written_line (Path P output));;
     print P (processed_line
                (length (findall_descendants (lit "member") root)))) w
  ∧ html = join [LF] (html_head default_title) ++ [LF]
           ++ join [LF] ((findall_descendants (lit "member") root
                          ≫= λ n, member_block n.2) ++ html_foot)
  ∧ html_parts root None !! 5%nat
    = Some (lit "    <title>NuGetInspectorApp Documentation</title>")
  ∧ html_parts root None !! 11%nat
    = Some (lit "    <h1>NuGetInspectorApp Documentation</h1>").
Proof.
  intros Hroot html. split_and!.
  - unfold convert_xml_to_html.
    assert (exists_ w (Path P input) = true) as ->.
    { apply exists_spec. unfold et_parse in Hroot.
      by destruct (fs w !! Path P input). }
    cbn [negb]. by rewrite Hroot.
  - subst html. unfold generate_html_content.
    rewrite html_parts_blocks. apply join_app; [done|].
    by destruct (_ ≫= _).
  - by rewrite html_parts_blocks.
  - by rewrite html_parts_blocks.
Qed.

End DriverProperties.

Lemma missing_input_not_found_witness :
  fs sample_world !! lit "missing.xml" = None
  ∧ convert_xml_to_html sample_parser sample_platform (lit "missing.xml")
      (lit "out.html") sample_world
    = (sample_world,
       inl (FileNotFoundError (lit "Input file not found: missing.xml"))).
Proof.
  split; [by vm_compute|].
  refine (proj1 (missing_input_not_found sample_parser sample_platform
                   (lit "missing.xml") (lit "out.html") sample_world _)).
  by vm_compute.
Defined.

Lemma malformed_input_parse_error_witness :
  fs sample_world !! lit "empty.xml" = Some (File [])
  ∧ convert_xml_to_html sample_parser sample_platform (lit "empty.xml")
      (lit "out.html") sample_world
    = (sample_world,
       inl (ParseError (lit "no element found: line 1, column 0"))).
Proof.
  split; [by vm_compute|].
  refine (proj1 (malformed_input_parse_error sample_parser sample_platform
                   (lit "empty.xml") (lit "out.html") sample_world [] _ _ _));
    by vm_compute.
Defined.

Lemma processed_count_witness :
  let r := convert_xml_to_html sample_parser sample_platform (lit "doc.xml")
             (lit "out.html") sample_world in
  r.2 = inr ()
  ∧ stdout r.1
    = [ written_line (lit "out.html");
        [63743; 252; 236; 228] ++ lit " Processed 2 documentation members" ]
  ∧ ∃ root html n digits w1 w2,
      et_parse sample_parser (lit "doc.xml") sample_world = inr root
      ∧ html = generate_html_content root None
      ∧ sample_write_text (lit "out.html") html sample_world = (w1, inr ())
      ∧ sample_print (written_line (lit "out.html")) w1 = (w2, inr ())
      ∧ sample_print ([63743; 252; 236; 228] ++ lit " Processed " ++ digits
                      ++ lit " documentation members") w2
        = (r.1, inr ())
      ∧ decimal_value digits = Some n
      ∧ n = length (findall_descendants (lit "member") root)
      ∧ n = occurrences block_tag html.
Proof.
  intros r. split; [by vm_compute|]. split; [by vm_compute|].
  apply (processed_count sample_parser sample_platform (lit "doc.xml")
           (lit "out.html") sample_world r.1).
  by vm_compute.
Defined.

Lemma driver_default_title_witness :
  et_parse sample_parser (lit "doc.xml") sample_world = inr sample_root
  ∧ html_parts sample_root None !! 5%nat
    = Some (lit "    <title>NuGetInspectorApp Documentation</title>")
  ∧ html_parts sample_root None !! 11%nat
    = Some (lit "    <h1>NuGetInspectorApp Documentation</h1>").
Proof.
  assert (et_parse sample_parser (lit "doc.xml") sample_world = inr sample_root)
    as Hroot by (by vm_compute).
  split; [done|].
  exact (proj2 (proj2 (driver_default_title sample_parser sample_platform
                         (lit "doc.xml") (lit "out.html") sample_world
                         sample_root Hroot))).
Defined.

(** The example of the specification: name ["Foo.Bar"], summary
    ["Does a thing."]. *)
Example foo_bar_block :
  member_block (member_elem "Foo.Bar" [summary_elem (lit "Does a thing.")])
  = [ lit "    <div class='member-block'>";
      lit "        <h2><code class='member-name'>Foo.Bar</code></h2>";
      lit "        <p>Does a thing.</p>";
      lit "    </div>" ].
Proof. by vm_compute. Qed.

(** A member inside a member: both get a block, the outer one first. *)
Example nested_members :
  (findall_descendants (lit "member")
     (mkElement (lit "member") ∅ None None
        [member_elem "outer" [member_elem "inner" []]])).*1
  = [[0]; [0; 0]]%nat.
Proof. by vm_compute. Qed.

(** * Further properties *)

(** ** Plain text and the ends of an escaped text *)

Section EscapeMore.

Implicit Types (c : N) (s t : list N).

Lemma escape_char_plain c : c ∉ special → escape_char c = [c].
Proof.
  unfold special, markup. rewrite !not_elem_of_cons.
  intros (?&?&?&?&?&_). unfold escape_char. by rewrite !decide_False by done.
Qed.

(** A text without any of the five special characters is left as it
    is. *)
Lemma escape_plain s : Forall (λ c, c ∉ special) s → escape s = s.
Proof.
  induction 1 as [|c s Hc _ IH]; [done|].
  by rewrite escape_cons, escape_char_plain, IH.
Qed.

Lemma escape_char_ends c :
  isspace c = false →
  ∃ d u, escape_char c = d :: u ∧ isspace d = false
         ∧ ∀ e, last (escape_char c) = Some e → isspace e = false.
Proof.
  intros Hc. unfold escape_char.
  repeat case_decide; subst;
    try (eexists _, _; split; [reflexivity|]; split; [done|];
           by intros e [= <-]).
Qed.

Lemma escape_head s c :
  (∀ d, head s = Some d → isspace d = false) →
  head (escape s) = Some c → isspace c = false.
Proof.
  destruct s as [|d s]; [done|]. intros Hd. rewrite escape_cons.
  destruct (escape_char_ends d) as (d' & u & -> & Hd' & _); [by apply Hd|].
  by intros [= <-].
Qed.

Lemma escape_last s c :
  (∀ d, last s = Some d → isspace d = false) →
  last (escape s) = Some c → isspace c = false.
Proof.
  destruct s as [|d s _] using rev_ind; [done|]. intros Hd.
  rewrite escape_app, escape_singleton.
  destruct (escape_char_ends d) as (d' & u & Hdu & _ & Hlast).
  { apply Hd. by rewrite last_snoc. }
  rewrite Hdu, last_app. rewrite Hdu in Hlast.
  destruct (last (d' :: u)) as [e|] eqn:He; [|by apply last_None in He].
  intros [= <-]. by apply Hlast.
Qed.

End EscapeMore.

(** ** The extractor *)

Section ExtractorMore.

Implicit Types (m e : Element) (t : list N).

(** X2: the summary of a member is its summary text with white space
    cut off at both ends and nothing else: the text is the decoded
    summary between two runs of white space, and the summary neither
    starts nor ends with white space. *)
Theorem summary_trimmed m e t :
  find (lit "summary") m = Some e → text e = Some t → t ≠ [] →
  let summary := (extract_member_info m).2 in
  (∃ a b, t = a ++ unescape summary ++ b ∧ blank a ∧ blank b)
  ∧ (∀ c, head summary = Some c → isspace c = false)
  ∧ (∀ c, last summary = Some c → isspace c = false).
Proof.
  intros He Ht Hne summary. subst summary.
  rewrite (summary_some m e t) by done. rewrite unescape_escape.
  destruct (strip_decompose t) as (a & b & Heq & Ha & Hb & Hhead & Hlast).
  split_and!.
  - by exists a, b.
  - intros c. by apply escape_head.
  - intros c. by apply escape_last.
Qed.

Lemma summary_trimmed_witness :
  let m := member_elem "Foo.Bar" [summary_elem (lit " Does a <thing> & 'more'. ")] in
  (∃ a b, lit " Does a <thing> & 'more'. "
          = a ++ unescape (extract_member_info m).2 ++ b ∧ blank a ∧ blank b)
  ∧ head (extract_member_info m).2 = Some 68.
Proof.
  intros m. split; [|by vm_compute].
  refine (proj1 (summary_trimmed m
            (summary_elem (lit " Does a <thing> & 'more'. "))
            (lit " Does a <thing> & 'more'. ") _ _ _)); by vm_compute.
Defined.

(** X3: a summary text without ampersand, angle bracket and quote
    comes out as it is, trimmed. *)
Theorem plain_summary_verbatim m e t :
  find (lit "summary") m = Some e → text e = Some t → t ≠ [] →
  (∀ c, c ∈ t → c ∉ special) →
  (extract_member_info m).2 = strip t.
Proof.
  intros He Ht Hne Hplain. rewrite (summary_some m e t) by done.
  apply escape_plain, Forall_forall. intros c Hc. apply Hplain.
  destruct (strip_decompose t) as (a & b & Heq & _).
  rewrite Heq, !elem_of_app. auto.
Qed.

Lemma plain_summary_verbatim_witness :
  (extract_member_info
     (member_elem "Foo.Bar" [summary_elem (lit "  Does a thing.  ")])).2
  = lit "Does a thing.".
Proof.
  refine (plain_summary_verbatim
            (member_elem "Foo.Bar" [summary_elem (lit "  Does a thing.  ")])
            (summary_elem (lit "  Does a thing.  "))
            (lit "  Does a thing.  ") _ _ _ _); try by vm_compute.
  apply Forall_forall, (bool_decide_unpack _). by vm_compute.
Defined.

(** X4: the identifier in the heading of a block and the title in the
    [title] and [h1] lines are escaped like a summary: no angle bracket
    and no quote is left in them, and reading the references back gives
    the identifier and the title. *)
Theorem names_and_title_escaped m (root : Element) (title : option (list N)) :
  let name := (extract_member_info m).1 in
  let t := default default_title title in
  (∃ h, member_block m !! 1%nat
        = Some (lit "        <h2><code class='member-name'>" ++ h
                ++ lit "</code></h2>")
        ∧ (∀ c, c ∈ markup → c ∉ h) ∧ unescape h = name)
  ∧ (∃ h, html_parts root title !! 5%nat
          = Some (lit "    <title>" ++ h ++ lit "</title>")
          ∧ html_parts root title !! 11%nat
            = Some (lit "    <h1>" ++ h ++ lit "</h1>")
          ∧ (∀ c, c ∈ markup → c ∉ h) ∧ unescape h = t).
Proof.
  intros name t. split.
  - exists (escape name). split_and!.
    + subst name. unfold member_block. by destruct (extract_member_info m).
    + intros c Hc. by apply escape_no_markup.
    + apply unescape_escape.
  - exists (escape t). rewrite html_parts_blocks. split_and!; [done..| |].
    + intros c Hc. by apply escape_no_markup.
    + apply unescape_escape.
Qed.

End ExtractorMore.

(** ** The tags of a page *)

Section Census.

Implicit Types (c : N) (s t p u pre mid post : list N) (m root : Element).

Lemma starts_with_app p u t :
  starts_with p u = true → starts_with p (u ++ t) = true.
Proof.
  revert u. induction p as [|a p IH]; intros [|b u]; simpl; try done.
  intros [-> Hu]%andb_true_iff. by rewrite IH.
Qed.

Lemma occurrences_closed p s t :
  closed p s = true →
  occurrences p (s ++ t) = (occurrences p s + occurrences p t)%nat.
Proof.
  induction s as [|b s IH]; [done|].
  cbn [closed]. intros [Hb Hs]%andb_true_iff.
  change ((b :: s) ++ t) with (b :: (s ++ t)). cbn [occurrences].
  rewrite IH by done. change (b :: (s ++ t)) with ((b :: s) ++ t).
  apply orb_true_iff in Hb as [Hb|Hb].
  - rewrite clash_starts_with by done.
    pose proof (clash_starts_with p (b :: s) [] Hb) as H0.
    rewrite app_nil_r in H0. by rewrite H0.
  - rewrite starts_with_app by done. rewrite Hb. lia.
Qed.

Lemma occurrences_inert_0 p s : inert p s = true → occurrences p s = 0%nat.
Proof.
  intros H. pose proof (occurrences_inert p s [] H) as H0.
  by rewrite app_nil_r in H0.
Qed.

(** Text that went through [escape] adds no place at which a tag
    starts. *)
Lemma occurrences_hole p q pre post s :
  p = LT :: q → closed p pre = true →
  occurrences p (pre ++ escape s ++ post) = occurrences p (pre ++ post).
Proof.
  intros -> Hpre.
  rewrite (occurrences_closed _ pre (escape s ++ post)) by done.
  rewrite (occurrences_closed _ pre post) by done.
  rewrite occurrences_inert; [done|].
  apply inert_no_head, escape_no_markup, list_elem_of_here.
Qed.

Lemma template_tag_spec p :
  template_tag p = true →
  (∃ q, p = LT :: q) ∧ (LF ∉ p) ∧ Forall (λ s, closed p s = true) seams.
Proof.
  unfold template_tag. rewrite !andb_true_iff, !bool_decide_eq_true.
  intros [[Hhead HLF] Hseams]. split_and!; [|done|].
  - destruct p as [|c q]; [done|]. injection Hhead as ->. by exists q.
  - apply Forall_forall. intros s Hs%list_elem_of_In.
    by apply (proj1 (forallb_forall _ _) Hseams).
Qed.

Lemma html_head_census p t :
  template_tag p = true →
  sum_list_with (occurrences p) (html_head t)
  = sum_list_with (occurrences p) (html_head []).
Proof.
  intros ([q Hq] & _ & Hseams)%template_tag_spec.
  unfold seams in Hseams. rewrite !Forall_cons in Hseams.
  destruct Hseams as (H1 & H2 & _).
  unfold html_head. cbn [sum_list_with].
  by rewrite !(occurrences_hole p q) by done.
Qed.

Lemma member_block_census p m :
  template_tag p = true →
  sum_list_with (occurrences p) (member_block m)
  = sum_list_with (occurrences p) (bare_block (has_placeholder m)).
Proof.
  intros ([q Hq] & _ & Hseams)%template_tag_spec.
  unfold seams in Hseams. rewrite !Forall_cons in Hseams.
  destruct Hseams as (_ & _ & H3 & H4 & _).
  unfold member_block, bare_block, has_placeholder.
  destruct (summary_cases m) as [Hs|(e & t & _ & _ & _ & Hs)];
    destruct (extract_member_info m) as [name summary]; simpl in Hs;
    subst summary.
  - rewrite bool_decide_eq_true_2 by done. cbn [sum_list_with].
    rewrite (occurrences_hole p q) by done. reflexivity.
  - rewrite bool_decide_eq_false_2 by apply escape_not_placeholder.
    cbn [sum_list_with]. rewrite !(occurrences_hole p q) by done.
    reflexivity.
Qed.

(** The count of a tag in a page, fragment by fragment. *)
Lemma page_census p root title :
  template_tag p = true →
  occurrences p (generate_html_content root title)
  = (sum_list_with (occurrences p) (html_head [])
     + sum_list_with
         (λ n, sum_list_with (occurrences p) (bare_block (has_placeholder n.2)))
         (findall_descendants (lit "member") root)
     + sum_list_with (occurrences p) html_foot)%nat.
Proof.
  intros Hp. pose proof Hp as ([q Hq] & HLF & _)%template_tag_spec.
  unfold generate_html_content.
  rewrite occurrences_join by (by subst).
  rewrite html_parts_blocks, !sum_list_with_app, html_head_census by done.
  rewrite Nat.add_assoc. f_equal. f_equal.
  induction (findall_descendants _ root) as [|n ms IH]; [done|].
  rewrite bind_cons, sum_list_with_app, IH, member_block_census by done.
  done.
Qed.

Lemma skeleton_census p root :
  LF ∉ p → p ≠ [] →
  occurrences p (skeleton root)
  = (sum_list_with (occurrences p) (html_head [])
     + sum_list_with
         (λ n, sum_list_with (occurrences p) (bare_block (has_placeholder n.2)))
         (findall_descendants (lit "member") root)
     + sum_list_with (occurrences p) html_foot)%nat.
Proof.
  intros HLF Hp. unfold skeleton.
  rewrite occurrences_join, !sum_list_with_app by done.
  rewrite Nat.add_assoc. f_equal. f_equal.
  induction (findall_descendants _ root) as [|n ms IH]; [done|].
  by rewrite bind_cons, sum_list_with_app, IH.
Qed.

Lemma sum_list_with_const {A} (f : A → nat) (k : nat) (l : list A) :
  (∀ y, f y = k) → sum_list_with f l = (length l * k)%nat.
Proof.
  intros Hf. induction l as [|y l IH]; [done|].
  simpl. rewrite Hf, IH. lia.
Qed.

(** A tag that is in every bare block equally often. *)
Lemma page_census_uniform p (h b k : nat) root title :
  template_tag p = true →
  sum_list_with (occurrences p) (html_head []) = h →
  (∀ x, sum_list_with (occurrences p) (bare_block x) = b) →
  sum_list_with (occurrences p) html_foot = k →
  occurrences p (generate_html_content root title)
  = (h + length (findall_descendants (lit "member") root) * b + k)%nat.
Proof.
  intros Hp Hh Hb Hk. rewrite page_census, Hh, Hk by done.
  by rewrite (sum_list_with_const _ b).
Qed.

Ltac census h b k :=
  rewrite (page_census_uniform _ h b k);
  [lia | by vm_compute | by vm_compute | by intros [] | by vm_compute].

(** X5: how often a tag of the template occurs in a page does not
    depend on the title, the names and the summary texts: it occurs as
    often as in the page with all of them taken out. *)
Theorem tags_independent_of_text p root title :
  template_tag p = true →
  occurrences p (generate_html_content root title)
  = occurrences p (skeleton root).
Proof.
  intros Hp. pose proof Hp as ([q Hq] & HLF & _)%template_tag_spec.
  rewrite page_census by done. rewrite skeleton_census; [done..|by subst].
Qed.

Lemma tags_independent_of_text_witness :
  template_tag [LT] = true
  ∧ occurrences [LT] (generate_html_content sample_root (Some (lit "a < b")))
    = occurrences [LT] (skeleton sample_root).
Proof.
  split; [by vm_compute|].
  apply (tags_independent_of_text [LT] sample_root (Some (lit "a < b"))).
  by vm_compute.
Defined.

(** X6: every page is a whole document: it starts with the doctype
    line, ends with the closing [body] and [html] tags, and holds each
    tag of the frame exactly once, whatever the document and the title
    are. *)
Theorem page_is_complete_document root title :
  let page := generate_html_content root title in
  (∃ body, page = lit "<!DOCTYPE html>" ++ [LF] ++ body ++ [LF]
                  ++ lit "</body>" ++ [LF] ++ lit "</html>")
  ∧ Forall (λ p, occurrences p page = 1%nat)
      [ lit "<!DOCTYPE html>"; lit "<html"; lit "<head>"; lit "<meta charset=";
        lit "<title>"; lit "</title>"; lit "<style>"; lit "</style>";
        lit "</head>"; lit "<body>"; lit "<h1>"; lit "</h1>";
        lit "</body>"; lit "</html>" ].
Proof.
  intros page. subst page. split.
  - unfold generate_html_content. rewrite html_parts_blocks.
    set (blocks := _ ≫= _).
    exists (join [LF] (drop 1 (html_head (default default_title title)) ++ blocks)).
    rewrite app_assoc, join_app;
      [|unfold html_head; by cbn [app]|by unfold html_foot].
    unfold html_head. cbn [drop app join].
    by rewrite <-!app_assoc.
  - repeat apply Forall_cons_2; [..|apply Forall_nil_2].
    all: first [census 1%nat 0%nat 0%nat | census 0%nat 0%nat 1%nat].
Qed.

(** X7: the tags of the blocks are balanced: a page holds as many
    closing [div] tags as opening ones, and as many opening and closing
    [h2], [code] and [p] tags, one of each for every member. *)
Theorem block_tags_balance root title :
  let page := generate_html_content root title in
  Forall (λ p, occurrences p page
               = length (findall_descendants (lit "member") root))
    [ lit "<div"; lit "</div>"; lit "<h2>"; lit "</h2>";
      lit "<code"; lit "</code>"; lit "<p>"; lit "</p>" ].
Proof.
  intros page. subst page.
  repeat apply Forall_cons_2; [..|apply Forall_nil_2].
  all: census 0%nat 1%nat 0%nat.
Qed.

(** X8: the placeholder is in the page once for every member whose
    summary it stands for, and a summary text cannot put it there. *)
Theorem placeholder_count root title :
  occurrences no_summary (generate_html_content root title)
  = length (filter (λ n, has_placeholder n.2 = true)
              (findall_descendants (lit "member") root)).
Proof.
  rewrite page_census by (by vm_compute).
  replace (sum_list_with (occurrences no_summary) (html_head [])) with 0%nat
    by (by vm_compute).
  replace (sum_list_with (occurrences no_summary) html_foot) with 0%nat
    by (by vm_compute).
  rewrite Nat.add_0_l, Nat.add_0_r.
  assert (∀ x, sum_list_with (occurrences no_summary) (bare_block x)
               = if x then 1%nat else 0%nat) as Hb
    by (intros []; by vm_compute).
  induction (findall_descendants _ root) as [|n ms IH]; [done|].
  rewrite filter_cons. cbn [sum_list_with]. rewrite IH, Hb.
  destruct (has_placeholder n.2);
    [rewrite decide_True by done|rewrite decide_False by done]; reflexivity.
Qed.

(** X9: no page holds a [script] tag, whatever the document and the
    title are. *)
Theorem no_script_tag root title :
  occurrences (lit "<script") (generate_html_content root title) = 0%nat.
Proof.
  census 0%nat 0%nat 0%nat.
Qed.

End Census.

(** ** UTF-8 *)

Section Utf8.

Implicit Types (c b : N) (s bs rest : list N).

Ltac Zify.zify_post_hook ::= Z.to_euclidean_division_equations.

Ltac decide_tests :=
  repeat match goal with
  | |- context [N.ltb ?a ?b] =>
    first [rewrite (proj2 (N.ltb_lt a b)) by lia
          |rewrite (proj2 (N.ltb_ge a b)) by lia]
  | |- context [N.leb ?a ?b] =>
    first [rewrite (proj2 (N.leb_le a b)) by lia
          |rewrite (proj2 (N.leb_gt a b)) by lia]
  end.

Lemma utf8_char_scalar c : is_Some (utf8_char c) ↔ scalar c = true.
Proof.
  unfold utf8_char, scalar.
  destruct (N.ltb_spec c 128); [decide_tests; by split|].
  destruct (N.ltb_spec c 2048); [decide_tests; by split|].
  destruct (N.leb_spec 55296 c), (N.leb_spec c 57343); cbn [andb].
  all: destruct (N.ltb_spec c 65536); destruct (N.ltb_spec c 1114112).
  all: decide_tests; cbn [andb orb]; split; try done.
  all: try by intros [? [=]].
  all: lia.
Qed.

(** Text can be written exactly when it is made of scalar values. *)
Lemma utf8_encode_scalar s :
  is_Some (utf8_encode s) ↔ Forall (λ c, scalar c = true) s.
Proof.
  unfold utf8_encode. rewrite fmap_is_Some, mapM_is_Some.
  apply Forall_iff. intros c. apply utf8_char_scalar.
Qed.

End Utf8.

(** ** Text that can be written *)

Section Encodable.

Implicit Types (c : N) (s t : list N) (parts : list (list N)) (m root : Element).

Local Abbreviation sc := (Forall (λ c, scalar c = true)).

Lemma scalar_char_refs :
  Forall (λ r, sc r.1 ∧ scalar r.2 = true) char_refs.
Proof. apply (bool_decide_unpack _). by vm_compute. Qed.

Lemma scalar_escape_char c : sc (escape_char c) ↔ scalar c = true.
Proof.
  destruct (escape_char_cases c) as [(r & Hr & -> & ->)|[_ ->]].
  - pose proof scalar_char_refs as H. rewrite Forall_forall in H.
    destruct (H r Hr). by split.
  - by rewrite Forall_singleton.
Qed.

(** Escaping neither adds nor removes a character that cannot be
    written. *)
Lemma scalar_escape s : sc (escape s) ↔ sc s.
Proof.
  rewrite escape_bind, Forall_bind. apply Forall_iff. intros c.
  apply scalar_escape_char.
Qed.

Lemma scalar_join parts : sc (join [LF] parts) ↔ Forall sc parts.
Proof.
  induction parts as [|s [|s' parts] IH].
  - split; constructor.
  - simpl. rewrite Forall_singleton. done.
  - change (join [LF] (s :: s' :: parts))
      with (s ++ LF :: join [LF] (s' :: parts)).
    rewrite Forall_app, Forall_cons, IH, (Forall_cons _ s). 
    split; [by intros (?&_&?)|by intros [??]].
Qed.

Lemma scalar_lit_hole (pre post : list N) s :
  sc pre → sc post → sc (pre ++ s ++ post) ↔ sc s.
Proof. intros Hpre Hpost. rewrite !Forall_app. tauto. Qed.

Ltac lit_scalar := apply (bool_decide_unpack _); by vm_compute.

Lemma scalar_html_head t : Forall sc (html_head t) ↔ sc t.
Proof.
  unfold html_head. rewrite !Forall_cons, Forall_nil.
  rewrite !scalar_lit_hole, scalar_escape by lit_scalar.
  split; [tauto|]. intros Ht. split_and!; try done; lit_scalar.
Qed.

Lemma scalar_html_foot : Forall sc html_foot.
Proof. apply (bool_decide_unpack _). by vm_compute. Qed.

Lemma scalar_member_block m :
  Forall sc (member_block m)
  ↔ sc (extract_member_info m).1 ∧ sc (extract_member_info m).2.
Proof.
  unfold member_block. destruct (extract_member_info m) as [name summary].
  rewrite !Forall_cons, Forall_nil.
  rewrite !scalar_lit_hole, scalar_escape by lit_scalar. simpl.
  split; [tauto|]. intros [??]. split_and!; try done; lit_scalar.
Qed.

Lemma page_encodable_iff root (title : option (list N)) :
  is_Some (utf8_encode (generate_html_content root title))
  ↔ encodable (default default_title title)
    ∧ ∀ p m, (p, m) ∈ findall_descendants (lit "member") root →
             encodable (extract_member_info m).1
             ∧ encodable (extract_member_info m).2.
Proof.
  unfold encodable, generate_html_content.
  rewrite utf8_encode_scalar, scalar_join, html_parts_blocks.
  rewrite !Forall_app, scalar_html_head, Forall_bind.
  split.
  - intros (Ht & Hms & _). split; [done|]. intros p m Hm.
    rewrite Forall_forall in Hms. apply scalar_member_block, (Hms _ Hm).
  - intros [Ht Hms]. split_and!; [done| |apply scalar_html_foot].
    apply Forall_forall. intros [p m] Hm.
    apply scalar_member_block. by apply (Hms p).
Qed.

(** X10: a page can be written as UTF-8 exactly when the title and
    the name and the summary of every member hold scalar values only;
    the template and the escaping never stand in the way. *)
Theorem page_encodable root (title : option (list N)) :
  is_Some (utf8_encode (generate_html_content root title))
  ↔ encodable (default default_title title)
    ∧ ∀ p m, (p, m) ∈ findall_descendants (lit "member") root →
             encodable (extract_member_info m).1
             ∧ encodable (extract_member_info m).2.
Proof. apply page_encodable_iff. Qed.

End Encodable.

(** ** The driver and the files *)

Section DriverMore.

Variable parse_xml : list N → list N + Element.
Variable P : Platform.

Implicit Types (w v : World) (input output q : list N) (root : Element).

Lemma convert_unfold input output w :
  convert_xml_to_html parse_xml P input output w
  = match fs w !! Path P input with
    | None =>
      (w, inl (FileNotFoundError (lit "Input file not found: " ++ input)))
    | Some Dir => (w, inl IsADirectoryError)
    | Some (File bytes) =>
      match parse_xml bytes with
      | inl msg => (w, inl (ParseError msg))
      | inr root =>
        (write_text P (Path P output) (generate_html_content root None);;
         print P (written_line (Path P output));;
         print P (processed_line
                    (length (findall_descendants (lit "member") root)))) w
      end
    end.
Proof.
  unfold convert_xml_to_html, exists_, et_parse.
  destruct (fs w !! Path P input) as [[bytes|]|] eqn:Hin.
  - rewrite bool_decide_eq_true_2 by done. cbn [negb].
    by destruct (parse_xml bytes).
  - by rewrite bool_decide_eq_true_2.
  - rewrite bool_decide_eq_false_2; [done|]. by intros [? [=]].
Qed.

(** A statement that changes no file, put after another. *)
Lemma then_keeps_files (m k : IO ()) w :
  (∀ v, fs (k v).1 = fs v) → fs ((m;; k) w).1 = fs (m w).1.
Proof.
  intros Hk. unfold mbind, IO_bind.
  destruct (m w) as [w' [e|[]]]; [done|]. apply Hk.
Qed.

(** The files after the three calls that end a run are those that
    [write_text] left. *)
Lemma finish_files output data line1 line2 w :
  print_keeps_files P →
  fs ((write_text P output data;; print P line1;; print P line2) w).1
  = fs (write_text P output data w).1.
Proof.
  intros Hprint. apply then_keeps_files. intros v.
  by rewrite then_keeps_files, Hprint.
Qed.

Lemma convert_frame input output w q :
  print_keeps_files P → write_keeps P (Path P output) q →
  fs (convert_xml_to_html parse_xml P input output w).1 !! q = fs w !! q.
Proof.
  intros Hprint Hwrite. rewrite convert_unfold.
  destruct (fs w !! Path P input) as [[bytes|]|]; [|done..].
  destruct (parse_xml bytes) as [msg|root]; [done|].
  by rewrite finish_files, Hwrite.
Qed.

(** X11: whatever happens, a run leaves as it was what every path
    names that writing to the output path leaves as it was, on a
    platform where printing changes no file: nothing is created,
    changed or removed beside the page. *)
Theorem convert_touches_only_output input output w q :
  print_keeps_files P → write_keeps P (Path P output) q →
  fs (convert_xml_to_html parse_xml P input output w).1 !! q = fs w !! q.
Proof. apply convert_frame. Qed.

(** A run on the files that a run has left. *)
Lemma convert_rerun input output w v :
  print_keeps_files P →
  write_keeps P (Path P output) (Path P input) →
  rewrite_stable P (Path P output) →
  fs v = fs (convert_xml_to_html parse_xml P input output w).1 →
  fs (convert_xml_to_html parse_xml P input output v).1 = fs v.
Proof.
  intros Hprint Hwrite Hstable Hv.
  assert (fs v !! Path P input = fs w !! Path P input) as Hin
    by (by rewrite Hv, convert_frame).
  revert Hv. rewrite (convert_unfold input output v), Hin.
  rewrite (convert_unfold input output w).
  destruct (fs w !! Path P input) as [[bytes|]|]; [|done..].
  destruct (parse_xml bytes) as [msg|root]; [done|].
  rewrite !finish_files by done. apply Hstable.
Qed.

(** X14: on a platform where printing changes no file, where writing
    to the output path leaves the input file as it was, and where
    writing again what has been written changes nothing more, a second
    run leaves the files as the first one left them. *)
Theorem rerun_same_files input output w :
  print_keeps_files P →
  write_keeps P (Path P output) (Path P input) →
  rewrite_stable P (Path P output) →
  let w1 := (convert_xml_to_html parse_xml P input output w).1 in
  fs (convert_xml_to_html parse_xml P input output w1).1 = fs w1.
Proof. intros Hprint Hwrite Hstable w1. by apply (convert_rerun _ _ w). Qed.

(** The driver on a path that does not exist. *)
Lemma missing_input_not_found_run input output w :
  fs w !! Path P input = None →
  convert_xml_to_html parse_xml P input output w
  = (w, inl (FileNotFoundError (lit "Input file not found: " ++ input)))
  ∧ handler (FileNotFoundError (lit "Input file not found: " ++ input))
    = NotFound.
Proof. intros Hin. by rewrite convert_unfold, Hin. Qed.

End DriverMore.

(** The platform of the examples is one of those platforms. *)
Lemma sample_print_keeps : print_keeps_files sample_platform.
Proof. by intros line w. Qed.

Lemma sample_write_keeps (output q : list N) :
  q ≠ output → write_keeps sample_platform output q.
Proof.
  intros Hq data w. cbn [write_text sample_platform]. unfold sample_write_text.
  destruct (fs w !! output) as [[?|]|]; [|done|].
  all: destruct (utf8_encode data); simpl; by rewrite lookup_insert_ne.
Qed.

Lemma sample_rewrite_stable (output : list N) :
  rewrite_stable sample_platform output.
Proof.
  intros data w v. cbn [write_text sample_platform]. unfold sample_write_text.
  destruct (fs w !! output) as [[?|]|] eqn:Hout.
  2: { simpl. intros Hv. by rewrite Hv, Hout. }
  all: destruct (utf8_encode data); simpl; intros Hv.
  all: rewrite Hv, lookup_insert_eq; simpl; by rewrite insert_insert_eq.
Qed.

Lemma convert_touches_only_output_witness :
  fs (convert_xml_to_html sample_parser sample_platform (lit "doc.xml")
        (lit "out.html") sample_world).1 !! lit "doc.xml"
  = Some (File (lit "<doc/>")).
Proof.
  rewrite (convert_touches_only_output sample_parser sample_platform
             (lit "doc.xml") (lit "out.html") sample_world (lit "doc.xml")).
  - by vm_compute.
  - apply sample_print_keeps.
  - apply sample_write_keeps. apply (bool_decide_unpack _). by vm_compute.
Defined.

Lemma rerun_same_files_witness :
  let w1 := (convert_xml_to_html sample_parser sample_platform (lit "doc.xml")
               (lit "out.html") sample_world).1 in
  fs (convert_xml_to_html sample_parser sample_platform (lit "doc.xml")
        (lit "out.html") w1).1
  = fs w1.
Proof.
  apply (rerun_same_files sample_parser sample_platform (lit "doc.xml")
           (lit "out.html") sample_world).
  - apply sample_print_keeps.
  - apply sample_write_keeps. apply (bool_decide_unpack _). by vm_compute.
  - apply sample_rewrite_stable.
Defined.

(** ** The entry point *)

Section MainProperties.

Variable parse_xml : list N → list N + Element.
Variable P : Platform.
Variable os_message : exn → list N.

Implicit Types (w v : World) (q : list N).

Local Abbreviation run :=
  (convert_xml_to_html parse_xml P main_input_file main_output_file).

Lemma main_fs w :
  print_keeps_files P → fs (main parse_xml P os_message w).1 = fs (run w).1.
Proof.
  intros Hprint. unfold main. destruct (run w) as [w' [e|[]]]; [|done].
  destruct (handler e); apply Hprint.
Qed.

(** X15: where the fixed input file does not exist, the entry point
    prints the one line of the first [except] clause, with the path in
    it, and does nothing else. *)
Theorem main_missing_input w :
  fs w !! Path P main_input_file = None →
  main parse_xml P os_message w
  = print P (error_mark ++ lit " Error: Input file not found: " ++ main_input_file)
      w.
Proof.
  intros Hin. unfold main.
  destruct (missing_input_not_found_run parse_xml P main_input_file
              main_output_file w Hin) as [-> _]. reflexivity.
Qed.

(** X17: on a platform where printing changes no file, the entry point
    leaves as it was what every path names that writing to its output
    file leaves as it was; and where that writing leaves the input file
    as it was and changes nothing more when it is done again, a second
    call leaves the files as the first did. *)
Theorem main_files w :
  print_keeps_files P →
  (∀ q, write_keeps P (Path P main_output_file) q →
        fs (main parse_xml P os_message w).1 !! q = fs w !! q)
  ∧ (write_keeps P (Path P main_output_file) (Path P main_input_file) →
     rewrite_stable P (Path P main_output_file) →
     fs (main parse_xml P os_message (main parse_xml P os_message w).1).1
     = fs (main parse_xml P os_message w).1).
Proof.
  intros Hprint. split.
  - intros q Hq. rewrite main_fs by done. by apply convert_frame.
  - intros Hwrite Hstable. rewrite (main_fs (main _ _ _ w).1) by done.
    apply (convert_rerun _ _ _ _ w); try done. by apply main_fs.
Qed.

End MainProperties.

(** On the platform of the examples the conditions hold of every path
    other than the output file, and of the input file. *)
Lemma main_files_sample parse_xml os_message w :
  let m := main parse_xml sample_platform os_message in
  (∀ q, q ≠ main_output_file → fs (m w).1 !! q = fs w !! q)
  ∧ fs (m (m w).1).1 = fs (m w).1.
Proof.
  intros m. subst m. split.
  - intros q Hq. rewrite main_fs by apply sample_print_keeps.
    apply convert_frame; [apply sample_print_keeps|].
    by apply sample_write_keeps.
  - rewrite (main_fs _ _ _ (main _ _ _ w).1) by apply sample_print_keeps.
    apply (convert_rerun _ _ _ _ w).
    + apply sample_print_keeps.
    + apply sample_write_keeps. apply (bool_decide_unpack _). by vm_compute.
    + apply sample_rewrite_stable.
    + apply main_fs, sample_print_keeps.
Qed.

Lemma main_missing_input_witness :
  main sample_parser sample_platform (λ _, []) sample_world
  = sample_print
      (error_mark ++ lit " Error: Input file not found: " ++ main_input_file)
      sample_world.
Proof.
  apply (main_missing_input sample_parser sample_platform (λ _, [])
           sample_world).
  by vm_compute.
Defined.

Lemma main_files_witness :
  let m := main sample_parser sample_platform (λ _, []) in
  (m main_world).2 = inr ()
  ∧ fs (m main_world).1 !! main_input_file = Some (File (lit "<doc/>"))
  ∧ fs (m (m main_world).1).1 = fs (m main_world).1.
Proof.
  intros m. split; [by vm_compute|].
  destruct (main_files sample_parser sample_platform (λ _, []) main_world
              sample_print_keeps) as [Hframe Hagain].
  split.
  - rewrite Hframe; [by vm_compute|].
    apply sample_write_keeps. apply (bool_decide_unpack _). by vm_compute.
  - apply Hagain; [|apply sample_rewrite_stable].
    apply sample_write_keeps. apply (bool_decide_unpack _). by vm_compute.
Defined.
